(** * query.py: the carbon-cycle completeness filter and the grouped re-query loop

    A shallow embedding of [src/query.py].  The script has two pieces of
    logic of its own:

    - [has_carbon_cycle], a predicate on the rows of one model group
      (lines 89-100), and
    - the loop that searches once per model group and concatenates the
      resulting tables (lines 108-149).

    Everything else ([ESGFCatalog().search], [model_groups], ...) belongs to
    the external catalogue library and is taken as a parameter. *)

From stdpp Require Import gmap strings list sorting.

Open Scope string_scope.
Open Scope list_scope.

(** ** Data model *)

(** One row of a catalogue dataframe: the three columns that identify a
    model group, the variable, and whatever else the catalogue reports. *)
Record row := Row {
  source_id : string;
  member_id : string;
  grid_label : string;
  variable_id : string;
  metadata : list (string * string)
}.

(** A dataframe is the list of its rows, in order. *)
Definition DataFrame := list row.

(** ** Python's set operations, as the script uses them *)

Module PySet.

(** [s.isdisjoint(other)] for an iterable [other]: no element of [other]
    is a member of [s]. *)
Definition isdisjoint (s : gset string) (other : list string) : bool :=
  forallb (fun v => negb (bool_decide (v ∈ s))) other.

(** [s.issuperset(other)] for an iterable [other]: every element of
    [other] is a member of [s]. *)
Definition issuperset (s : gset string) (other : list string) : bool :=
  forallb (fun v => bool_decide (v ∈ s)) other.

End PySet.

(** ** The completeness predicate (lines 89-100) *)

(** The body of [has_carbon_cycle] once [variables] has been bound. *)
Definition carbon_cycle_rule (variables : gset string) : bool :=
  if PySet.isdisjoint variables ["cSoil"; "cSoilAbove1m"] then false
  else if PySet.isdisjoint variables ["nbp"; "netAtmosLandCO2Flux"] then false
  else if PySet.issuperset variables ["cVeg"; "gpp"; "lai"] then true
  else false.

(** [set(df.variable_id)]: the variables that occur in a dataframe. *)
Definition variables (df : DataFrame) : gset string :=
  list_to_set (map variable_id df).

(** [variables = set(df.variable_id)], then the three tests. *)
Definition has_carbon_cycle (df : DataFrame) : bool :=
  carbon_cycle_rule (variables df).

(** ** The two [variable_id] lists of the script *)

(** Lines 74-82: the variables of the initial search. *)
Definition initial_variable_id : list string :=
  ["cSoilAbove1m"; "cSoil"; "cVeg"; "gpp"; "lai"; "nbp";
   "netAtmosLandCO2Flux"].

(** Lines 117-145: the variables of every per-group search. *)
Definition requery_variable_id : list string :=
  ["burntFractionAll"; "cSoilAbove1m"; "cSoil"; "cVeg"; "evspsbl"; "fBNF";
   "gpp"; "hfls"; "hfss"; "lai"; "mrro"; "mrsos"; "nbp";
   "netAtmosLandCO2Flux"; "pr"; "ra"; "rh"; "hurs"; "rlds"; "rlus"; "rsds";
   "rsus"; "snw"; "tas"; "tasmax"; "tasmin"; "tsl"].

(** ** Searches *)

(** The keyword arguments of one [ESGFCatalog().search(...)] call.  The
    initial search leaves the three group facets out. *)
Record filters := Filters {
  kw_source_id : option string;
  kw_member_id : option string;
  kw_grid_label : option string;
  kw_experiment_id : string;
  kw_variable_id : list string;
  kw_frequency : string
}.

(** Lines 72-84. *)
Definition initial_search : filters :=
  {| kw_source_id := None; kw_member_id := None; kw_grid_label := None;
     kw_experiment_id := "historical";
     kw_variable_id := initial_variable_id;
     kw_frequency := "mon" |}.

(** One entry of [groups.index]: [(source_id, member_id, grid_label)]. *)
Definition group : Type := string * string * string.

(** Lines 112-147: the search issued for one group. *)
Definition requery (g : group) : filters :=
  let '(source_id, member_id, grid_label) := g in
  {| kw_source_id := Some source_id;
     kw_member_id := Some member_id;
     kw_grid_label := Some grid_label;
     kw_experiment_id := "historical";
     kw_variable_id := requery_variable_id;
     kw_frequency := "mon" |}.

(** The catalogue library, as far as the script can observe it: a search
    either raises or returns the catalogue's dataframe, and may change the
    state of the outside world (the index nodes, the network, the cache). *)
Class Catalogue := {
  World : Type;
  search_error : Type;
  search : filters → World → (search_error + DataFrame) * World
}.

Section script.
Context `{Catalogue}.

(** What can reach the caller of the script. *)
Inductive exn :=
| SearchError (e : search_error)
| ValueError (msg : string).

(** What the script does that can be seen from outside, in order.  The
    [print] of line 111 is recorded by the three values it formats. *)
Inductive event :=
| Print (g : group)
| Search (q : filters) (r : search_error + DataFrame).

Record state := State {
  world : World;
  trace : list event
}.

(** Computations of the script: they read and change the state, and end
    with a value or with an exception. *)
Definition M (A : Type) : Type := state → (exn + A) * state.

#[export] Instance M_ret : MRet M := λ A x st, (inr x, st).

#[export] Instance M_bind : MBind M := λ A B f m st,
  match m st with
  | (inr x, st') => f x st'
  | (inl e, st') => (inl e, st')
  end.

Definition raise {A} (e : exn) : M A := λ st, (inl e, st).

Definition emit (ev : event) : M unit := λ st,
  (inr (), {| world := world st; trace := trace st ++ [ev] |}).

(** [print(f"Searching for ...")] *)
Definition print (g : group) : M unit := emit (Print g).

(** [ESGFCatalog().search(...).df] with keyword arguments [q]: the call is
    recorded with its outcome; an exception raised by the library is not
    caught. *)
Definition esgf_search (q : filters) : M DataFrame := λ st,
  let '(r, w) := search q (world st) in
  let st' := {| world := w; trace := trace st ++ [Search q r] |} in
  match r with
  | inr df => (inr df, st')
  | inl e => (inl (SearchError e), st')
  end.

(** [pd.concat(dfs)] as a function of the list alone: it raises on an empty
    list, and otherwise stacks the rows of the tables in list order. *)
Definition concat_outcome (tbls : list DataFrame) : exn + DataFrame :=
  match tbls with
  | [] => inl (ValueError "No objects to concatenate")
  | _ => inr (concat tbls)
  end.

(** [pd.concat(dfs)] as a step of the script. *)
Definition pd_concat (dfs : list DataFrame) : M DataFrame :=
  match concat_outcome dfs with
  | inl e => raise e
  | inr out => mret out
  end.

(** Lines 110-148: the [for] loop over [groups.index], with the list
    [dfs] it appends to. *)
Fixpoint requery_loop (index : list group) (dfs : list DataFrame)
  : M (list DataFrame) :=
  match index with
  | [] => mret dfs
  | g :: index' =>
      print g ;;
      df ← esgf_search (requery g) ;
      requery_loop index' (dfs ++ [df])
  end.

(** Lines 109-149: [dfs = []], the loop, and the final concatenation. *)
Definition combine (index : list group) : M DataFrame :=
  dfs ← requery_loop index [] ;
  pd_concat dfs.

(** A run of that part of the script from a given outside world. *)
Definition run (index : list group) (w : World) : (exn + DataFrame) * state :=
  combine index {| world := w; trace := [] |}.

(** The searches of a trace with their outcomes, in order. *)
Fixpoint searches (tr : list event)
  : list (filters * (search_error + DataFrame)) :=
  match tr with
  | [] => []
  | Print _ :: tr' => searches tr'
  | Search q r :: tr' => (q, r) :: searches tr'
  end.

(** The tables returned by the searches of a trace, in order. *)
Fixpoint results (tr : list event) : list DataFrame :=
  match tr with
  | [] => []
  | Search _ (inr df) :: tr' => df :: results tr'
  | _ :: tr' => results tr'
  end.

(** No search of the trace raised. *)
Definition all_returned (tr : list event) : bool :=
  forallb (λ qr, match qr.2 with inr _ => true | inl _ => false end)
          (searches tr).

End script.

(** ** What a run looks like from outside *)

(** The model group a row belongs to. *)
Definition group_of (r : row) : group :=
  (source_id r, member_id r, grid_label r).

(** A facet left out of a search allows every value; a facet given allows
    that value only. *)
Definition facet_allows (kw : option string) (x : string) : bool :=
  match kw with
  | None => true
  | Some y => bool_decide (y = x)
  end.

(** A row answers a search when it matches every group facet the search
    fixes and carries one of the variables asked for. *)
Definition answers (q : filters) (r : row) : bool :=
  facet_allows (kw_source_id q) (source_id r) &&
  facet_allows (kw_member_id q) (member_id r) &&
  facet_allows (kw_grid_label q) (grid_label r) &&
  bool_decide (variable_id r ∈ kw_variable_id q).

Section observations.
Context `{Catalogue}.

(** One turn of the loop as the trace shows it. *)
Definition turn (g : group) (r : search_error + DataFrame) : list event :=
  [Print g; Search (requery g) r].

(** The outside world after the search for one group has been served. *)
Definition served (w : World) (g : group) : World :=
  (search (requery g) w).2.

(** A catalogue that returns nothing but rows that answer the search. *)
Definition respects_filters : Prop :=
  ∀ q w df, (search q w).1 = inr df → forallb (answers q) df = true.

End observations.

(** ** The order of the groups *)

(** Line 108, [groups = cat.model_groups()], is a call into the catalogue
    library: from the catalogue's dataframe it gives the model groups, and
    the loop goes through them in the order of [groups.index].  The script
    takes that order as it comes, so the library's function is a parameter
    here. *)
Section grouping.
Context `{Catalogue}.

(** Lines 108-149 from a given world: the groups of the catalogue's
    dataframe as the library lists them, the loop over them, and the
    concatenation. *)
Definition requery_groups (model_groups : DataFrame → list group)
    (cat_df : DataFrame) (w : World) : (exn + DataFrame) * state :=
  run (model_groups cat_df) w.

End grouping.

(** The order the specification speaks of: the distinct groups of a
    dataframe in the order in which they are first encountered. *)
Fixpoint distinct_in_order (seen gs : list group) : list group :=
  match gs with
  | [] => []
  | g :: gs' =>
      if bool_decide (g ∈ seen) then distinct_in_order seen gs'
      else g :: distinct_in_order (g :: seen) gs'
  end.

Definition first_seen (df : DataFrame) : list group :=
  distinct_in_order [] (map group_of df).

(** The blocks of a combined table come in the order in which the groups
    are first encountered in the catalogue's dataframe. *)
Definition in_first_seen_order (cat_df out : DataFrame) : bool :=
  bool_decide (first_seen out = first_seen cat_df).

(** A listing of the distinct groups sorted by [source_id], the way an
    index built by grouping on the key columns comes out. *)
Definition source_le (g1 g2 : group) : Prop := String.le g1.1.1 g2.1.1.

#[export] Instance source_le_dec : RelDecision source_le.
Proof. intros g1 g2. unfold source_le. apply _. Defined.

Definition sorted_groups (df : DataFrame) : list group :=
  merge_sort source_le (first_seen df).

(** ** Sample data *)

(** A row of the group [("CESM2", "r1i1p1f1", "gn")] for one variable. *)
Definition sample_row (v : string) : row :=
  {| source_id := "CESM2"; member_id := "r1i1p1f1"; grid_label := "gn";
     variable_id := v; metadata := [] |}.

(** The dataframe of that group with the given variables, one row each. *)
Definition sample_df (vs : list string) : DataFrame := map sample_row vs.

(** A catalogue for trying the loop: the world counts the searches served
    so far; the source "offline" cannot be reached; any other search
    returns rows of the group asked for, one more each time. *)
Definition sample_table (q : filters) (n : nat) : DataFrame :=
  map (λ v, {| source_id := default "" (kw_source_id q);
               member_id := default "" (kw_member_id q);
               grid_label := default "" (kw_grid_label q);
               variable_id := v; metadata := [] |})
      (take (S n) (kw_variable_id q)).

Definition sample_search (q : filters) (n : nat) : (string + DataFrame) * nat :=
  if bool_decide (kw_source_id q = Some "offline")
  then (inl "NoSearchResults", S n)
  else (inr (sample_table q n), S n).

Definition sample_catalogue : Catalogue :=
  {| World := nat; search_error := string; search := sample_search |}.

Definition index_online : list group :=
  [("CESM2", "r1i1p1f1", "gn"); ("CanESM5", "r1i1p1f1", "gn")].

Definition index_offline : list group :=
  [("CESM2", "r1i1p1f1", "gn"); ("offline", "r1i1p1f1", "gn");
   ("CanESM5", "r1i1p1f1", "gn")].

(** The combined table of the run over [index_online] from a fresh
    world. *)
Definition out_online : DataFrame :=
  sample_table (requery ("CESM2", "r1i1p1f1", "gn")) 0 ++
  sample_table (requery ("CanESM5", "r1i1p1f1", "gn")) 1.

(** A catalogue that finds nothing and never fails. *)
Definition silent_catalogue : Catalogue :=
  {| World := unit; search_error := Empty_set;
     search := λ _ w, (inr [], w) |}.

(** A catalogue dataframe with two complete groups, the rows of CESM2
    before those of ACCESS-ESM1-5. *)
Definition df_two_models : DataFrame :=
  map (λ v, {| source_id := "CESM2"; member_id := "r1i1p1f1";
               grid_label := "gn"; variable_id := v; metadata := [] |})
      ["cSoil"; "nbp"; "cVeg"; "gpp"; "lai"] ++
  map (λ v, {| source_id := "ACCESS-ESM1-5"; member_id := "r1i1p1f1";
               grid_label := "gn"; variable_id := v; metadata := [] |})
      ["cSoil"; "nbp"; "cVeg"; "gpp"; "lai"].

(** The combined table of the run over the sorted groups of
    [df_two_models] from a fresh world. *)
Definition out_two_models : DataFrame :=
  sample_table (requery ("ACCESS-ESM1-5", "r1i1p1f1", "gn")) 0 ++
  sample_table (requery ("CESM2", "r1i1p1f1", "gn")) 1.

Definition df_without_lai : DataFrame :=
  sample_df ["cSoil"; "cSoilAbove1m"; "nbp"; "cVeg"; "gpp"; "tas"].

Definition df_primary : DataFrame :=
  sample_df ["pr"; "cVeg"; "gpp"; "lai"; "cSoil"; "nbp"; "tas"].

Definition df_alternate : DataFrame :=
  sample_df ["cSoilAbove1m"; "netAtmosLandCO2Flux"; "cVeg"; "gpp"; "lai"].

Definition df_minimal : DataFrame :=
  sample_df ["cSoil"; "nbp"; "cVeg"; "gpp"; "lai"].

(** The rows of [df_minimal] in another order, with one of them twice, and
    reported for another model. *)
Definition df_shuffled : DataFrame :=
  map (λ v, {| source_id := "CanESM5"; member_id := "r2i1p1f1";
               grid_label := "gr"; variable_id := v;
               metadata := [("table_id", "Lmon")] |})
      ["lai"; "gpp"; "nbp"; "cVeg"; "lai"; "cSoil"].

(** * Properties *)

(** ** Python's set operations *)

Lemma isdisjoint_false (s : gset string) (other : list string) :
  PySet.isdisjoint s other = false ↔ ∃ v, v ∈ other ∧ v ∈ s.
Proof.
  unfold PySet.isdisjoint. induction other as [|x xs IH]; simpl.
  - split; [done | intros (v & Hv & _); by apply elem_of_nil in Hv].
  - rewrite andb_false_iff, IH, negb_false_iff, bool_decide_eq_true.
    split.
    + intros [Hx | (v & Hv & Hs)].
      * exists x. split; [left | done].
      * exists v. split; [by right | done].
    + intros (v & Hv & Hs). apply elem_of_cons in Hv as [-> | Hv].
      * by left.
      * right. by exists v.
Qed.

Lemma issuperset_true (s : gset string) (other : list string) :
  PySet.issuperset s other = true ↔ ∀ v, v ∈ other → v ∈ s.
Proof.
  unfold PySet.issuperset. rewrite forallb_forall. split.
  - intros H v Hv. apply list_elem_of_In in Hv.
    specialize (H v Hv). by apply bool_decide_eq_true in H.
  - intros H v Hv. apply bool_decide_eq_true, H. by apply list_elem_of_In.
Qed.

(** The two shapes the script uses. *)
Lemma isdisjoint_pair (s : gset string) (a b : string) :
  PySet.isdisjoint s [a; b] = false ↔ a ∈ s ∨ b ∈ s.
Proof.
  rewrite isdisjoint_false. split.
  - intros (v & Hv & Hs).
    apply elem_of_cons in Hv as [-> | Hv]; [by left |].
    apply list_elem_of_singleton in Hv as ->. by right.
  - intros [Ha | Hb]; [exists a | exists b]; split; try done.
    + apply elem_of_cons. by left.
    + apply elem_of_cons. right. by apply list_elem_of_singleton.
Qed.

Lemma issuperset_triple (s : gset string) (a b c : string) :
  PySet.issuperset s [a; b; c] = true ↔ a ∈ s ∧ b ∈ s ∧ c ∈ s.
Proof.
  unfold PySet.issuperset. simpl.
  rewrite !andb_true_iff, !bool_decide_eq_true. tauto.
Qed.

(** ** The completeness predicate *)

Section completeness.
Implicit Types (df : DataFrame) (S : gset string) (v : string).

(** A variable occurs in a dataframe when one of its rows carries it. *)
Lemma elem_of_variables df v :
  v ∈ variables df ↔ ∃ r, r ∈ df ∧ variable_id r = v.
Proof.
  unfold variables. rewrite elem_of_list_to_set, list_elem_of_In, in_map_iff.
  split; intros (r & H1 & H2); exists r.
  - by rewrite list_elem_of_In.
  - by rewrite <- list_elem_of_In.
Qed.

(** Every finite set of names is the variable set of some dataframe, so a
    statement about all dataframes is one about all variable sets. *)
Lemma variables_onto S : ∃ df, variables df = S.
Proof.
  exists ((λ v, Row "" "" "" v []) <$> elements S).
  apply set_eq. intros v. rewrite elem_of_variables. split.
  - intros (r & Hr & <-). apply list_elem_of_fmap in Hr as (u & -> & Hu).
    by apply elem_of_elements in Hu.
  - intros Hv. exists (Row "" "" "" v []). split; [|done].
    apply list_elem_of_fmap. exists v. by rewrite elem_of_elements.
Qed.

(** The rule read as a proposition about membership. *)
Lemma carbon_cycle_rule_spec S :
  carbon_cycle_rule S = true ↔
    ("cSoil" ∈ S ∨ "cSoilAbove1m" ∈ S) ∧
    ("nbp" ∈ S ∨ "netAtmosLandCO2Flux" ∈ S) ∧
    ("cVeg" ∈ S ∧ "gpp" ∈ S ∧ "lai" ∈ S).
Proof.
  unfold carbon_cycle_rule.
  rewrite <- !isdisjoint_pair, <- issuperset_triple.
  destruct (PySet.isdisjoint S _), (PySet.isdisjoint S _),
    (PySet.issuperset S _); intuition congruence.
Qed.

(** The predicate on a few dataframes: each of the three tests can be the
    one that rejects. *)
Example has_carbon_cycle_no_soil :
  has_carbon_cycle (sample_df ["nbp"; "cVeg"; "gpp"; "lai"]) = false.
Proof. vm_compute. reflexivity. Qed.

Example has_carbon_cycle_no_flux :
  has_carbon_cycle (sample_df ["cSoil"; "cVeg"; "gpp"; "lai"]) = false.
Proof. vm_compute. reflexivity. Qed.

Example has_carbon_cycle_no_lai : has_carbon_cycle df_without_lai = false.
Proof. vm_compute. reflexivity. Qed.

Example has_carbon_cycle_empty : has_carbon_cycle [] = false.
Proof. vm_compute. reflexivity. Qed.

(** C1: [has_carbon_cycle] returns true exactly when the variables of the
    dataframe contain one of cSoil and cSoilAbove1m, one of nbp and
    netAtmosLandCO2Flux, and all three of cVeg, gpp and lai. *)
Theorem has_carbon_cycle_iff df :
  has_carbon_cycle df = true ↔
    ("cSoil" ∈ variables df ∨ "cSoilAbove1m" ∈ variables df) ∧
    ("nbp" ∈ variables df ∨ "netAtmosLandCO2Flux" ∈ variables df) ∧
    ("cVeg" ∈ variables df ∧ "gpp" ∈ variables df ∧ "lai" ∈ variables df).
Proof. apply carbon_cycle_rule_spec. Qed.

(** C3: a dataframe that lacks cVeg, or gpp, or lai is rejected, whatever
    else it contains. *)
Theorem has_carbon_cycle_missing_required df :
  "cVeg" ∉ variables df ∨ "gpp" ∉ variables df ∨ "lai" ∉ variables df →
  has_carbon_cycle df = false.
Proof.
  intros Hmiss. apply not_true_is_false. intros Htrue.
  apply carbon_cycle_rule_spec in Htrue as (_ & _ & Hc & Hg & Hl).
  destruct Hmiss as [Hm | [Hm | Hm]]; by apply Hm.
Qed.

Lemma has_carbon_cycle_missing_required_witness :
  ("lai" ∉ variables df_without_lai) ∧
  has_carbon_cycle df_without_lai = false.
Proof.
  assert (Hlai : "lai" ∉ variables df_without_lai)
    by (vm_compute; intros H; discriminate H).
  split; [exact Hlai |].
  apply has_carbon_cycle_missing_required. right; right. exact Hlai.
Defined.

(** C4: a dataframe with cVeg, gpp, lai, cSoil and nbp among its variables
    is accepted. *)
Theorem has_carbon_cycle_primary df :
  {["cVeg"; "gpp"; "lai"; "cSoil"; "nbp"]} ⊆ variables df →
  has_carbon_cycle df = true.
Proof.
  intros Hsub. apply carbon_cycle_rule_spec.
  split_and!; [left | left | | |]; apply Hsub; set_solver.
Qed.

Lemma has_carbon_cycle_primary_witness :
  {["cVeg"; "gpp"; "lai"; "cSoil"; "nbp"]} ⊆ variables df_primary ∧
  has_carbon_cycle df_primary = true.
Proof.
  assert (Hsub : {["cVeg"; "gpp"; "lai"; "cSoil"; "nbp"]}
                   ⊆ variables df_primary)
    by (apply (bool_decide_unpack _); vm_compute; exact I).
  split; [exact Hsub | exact (has_carbon_cycle_primary df_primary Hsub)].
Defined.

(** C5: the other soil-carbon and flux names do as well: a dataframe with
    cSoilAbove1m, netAtmosLandCO2Flux, cVeg, gpp and lai among its
    variables is accepted. *)
Theorem has_carbon_cycle_alternate df :
  {["cSoilAbove1m"; "netAtmosLandCO2Flux"; "cVeg"; "gpp"; "lai"]}
    ⊆ variables df →
  has_carbon_cycle df = true.
Proof.
  intros Hsub. apply carbon_cycle_rule_spec.
  split_and!; [right | right | | |]; apply Hsub; set_solver.
Qed.

Lemma has_carbon_cycle_alternate_witness :
  {["cSoilAbove1m"; "netAtmosLandCO2Flux"; "cVeg"; "gpp"; "lai"]}
    ⊆ variables df_alternate ∧
  has_carbon_cycle df_alternate = true.
Proof.
  assert (Hsub : {["cSoilAbove1m"; "netAtmosLandCO2Flux"; "cVeg"; "gpp";
                   "lai"]} ⊆ variables df_alternate)
    by (apply (bool_decide_unpack _); vm_compute; exact I).
  split; [exact Hsub |].
  exact (has_carbon_cycle_alternate df_alternate Hsub).
Defined.

(** C8: the predicate is monotone: if it accepts a dataframe, it accepts
    every dataframe whose variables include those of the first. *)
Theorem has_carbon_cycle_monotone df df' :
  variables df ⊆ variables df' →
  has_carbon_cycle df = true →
  has_carbon_cycle df' = true.
Proof.
  intros Hsub Htrue. apply carbon_cycle_rule_spec.
  apply carbon_cycle_rule_spec in Htrue as (Hsoil & Hflux & Hc & Hg & Hl).
  split_and!.
  - destruct Hsoil as [Hs | Hs]; [left | right]; by apply Hsub.
  - destruct Hflux as [Hf | Hf]; [left | right]; by apply Hsub.
  - by apply Hsub.
  - by apply Hsub.
  - by apply Hsub.
Qed.

Lemma has_carbon_cycle_monotone_witness :
  variables df_minimal ⊆ variables df_primary ∧
  has_carbon_cycle df_minimal = true ∧
  has_carbon_cycle df_primary = true.
Proof.
  assert (Hsub : variables df_minimal ⊆ variables df_primary)
    by (apply (bool_decide_unpack _); vm_compute; exact I).
  assert (Htrue : has_carbon_cycle df_minimal = true)
    by (vm_compute; reflexivity).
  split; [exact Hsub | split; [exact Htrue |]].
  exact (has_carbon_cycle_monotone df_minimal df_primary Hsub Htrue).
Defined.

End completeness.

(** ** The grouped re-query loop *)

Section loop.
Context `{Catalogue}.
Implicit Types (index : list group) (dfs tbls : list DataFrame).
Implicit Types (st : state) (tr : list event) (w : World).

Lemma searches_app tr1 tr2 :
  searches (tr1 ++ tr2) = searches tr1 ++ searches tr2.
Proof.
  induction tr1 as [|[g | q r] tr1 IH]; simpl; [done | done |].
  by rewrite IH.
Qed.

Lemma results_app tr1 tr2 :
  results (tr1 ++ tr2) = results tr1 ++ results tr2.
Proof.
  induction tr1 as [|[g | q [e | df]] tr1 IH]; simpl; [done | done | done |].
  by rewrite IH.
Qed.

(** One turn of the loop, with the monad unfolded: print, search, and
    either stop with the library's exception or go on with the longer
    list. *)
Lemma requery_loop_cons g index dfs st :
  requery_loop (g :: index) dfs st =
    let st' r w :=
      {| world := w;
         trace := trace st ++ [Print g; Search (requery g) r] |} in
    match search (requery g) (world st) with
    | (inr df, w) => requery_loop index (dfs ++ [df]) (st' (inr df) w)
    | (inl e, w) => (inl (SearchError e), st' (inl e) w)
    end.
Proof.
  simpl. unfold mbind, M_bind, print, emit, esgf_search. simpl.
  destruct (search (requery g) (world st)) as [[e | df] w];
    by rewrite <- app_assoc.
Qed.

(** A loop that runs to its end has searched once for every group, in the
    order of the index, and has appended exactly the returned tables. *)
Lemma requery_loop_returns index : ∀ dfs st out st',
  requery_loop index dfs st = (inr out, st') →
  ∃ tbls,
    out = dfs ++ tbls ∧
    length tbls = length index ∧
    searches (trace st') =
      searches (trace st) ++ zip (requery <$> index) (inr <$> tbls) ∧
    results (trace st') = results (trace st) ++ tbls.
Proof.
  induction index as [|g index IH]; intros dfs st out st' Hrun.
  - injection Hrun as <- <-. exists [].
    by rewrite !app_nil_r.
  - rewrite requery_loop_cons in Hrun.
    destruct (search (requery g) (world st)) as [[e | df] w]; [done |].
    apply IH in Hrun as (tbls & -> & Hlen & Hs & Hr). simpl in Hs, Hr.
    exists (df :: tbls). split_and!.
    + by rewrite <- app_assoc.
    + simpl. by rewrite Hlen.
    + rewrite Hs, searches_app. simpl. by rewrite <- app_assoc.
    + rewrite Hr, results_app. simpl. by rewrite <- app_assoc.
Qed.

(** A loop that ends with an exception ends with the exception of a
    search, which is the last thing it did; the groups before it were
    searched once each, in order, and their searches returned. *)
Lemma requery_loop_raises index : ∀ dfs st e st',
  requery_loop index dfs st = (inl e, st') →
  ∃ k g err tbls pre,
    index !! k = Some g ∧
    e = SearchError err ∧
    length tbls = k ∧
    trace st' = pre ++ [Search (requery g) (inl err)] ∧
    searches pre =
      searches (trace st) ++ zip (requery <$> take k index) (inr <$> tbls).
Proof.
  induction index as [|g index IH]; intros dfs st e st' Hrun; [done |].
  rewrite requery_loop_cons in Hrun.
  destruct (search (requery g) (world st)) as [[err | df] w].
  - injection Hrun as <- <-.
    exists 0, g, err, [], (trace st ++ [Print g]). simpl. split_and!; try done.
    + by rewrite <- app_assoc.
    + rewrite searches_app. simpl. by rewrite !app_nil_r.
  - apply IH in Hrun as (k & g' & err & tbls & pre & Hk & -> & Hlen & Htr & Hs).
    simpl in Hs.
    exists (S k), g', err, (df :: tbls), pre. simpl. split_and!; try done.
    + by rewrite Hlen.
    + rewrite Hs, searches_app. simpl. by rewrite <- app_assoc.
Qed.

(** A run in which no search raised: one search per group, in index order,
    and the outcome is that of concatenating the returned tables. *)
Lemma run_all_returned index w :
  all_returned (trace (run index w).2) = true →
  ∃ tbls,
    length tbls = length index ∧
    searches (trace (run index w).2) =
      zip (requery <$> index) (inr <$> tbls) ∧
    (run index w).1 = concat_outcome tbls.
Proof.
  unfold run, combine, mbind, M_bind.
  destruct (requery_loop index [] {| world := w; trace := [] |})
    as [[e | dfs] st'] eqn:Hloop.
  - simpl. intros Hall.
    apply requery_loop_raises in Hloop
      as (k & g & err & tbls & pre & _ & _ & _ & Htr & _).
    rewrite Htr in Hall. unfold all_returned in Hall.
    rewrite searches_app, forallb_app in Hall.
    apply andb_true_iff in Hall as [_ Hlast]. discriminate Hlast.
  - intros _.
    apply requery_loop_returns in Hloop as (tbls & -> & Hlen & Hs & _).
    simpl in Hs. exists tbls. simpl.
    destruct tbls as [|t tbls]; simpl; by rewrite Hs.
Qed.

(** A run in which some search raised. *)
Lemma run_search_raised index w q err :
  (q, inl err) ∈ searches (trace (run index w).2) →
  ∃ k g tbls pre,
    index !! k = Some g ∧
    q = requery g ∧
    length tbls = k ∧
    trace (run index w).2 = pre ++ [Search q (inl err)] ∧
    searches pre = zip (requery <$> take k index) (inr <$> tbls) ∧
    (run index w).1 = inl (SearchError err).
Proof.
  unfold run, combine, mbind, M_bind.
  destruct (requery_loop index [] {| world := w; trace := [] |})
    as [[e | dfs] st'] eqn:Hloop.
  - simpl. intros Hin.
    apply requery_loop_raises in Hloop
      as (k & g & err' & tbls & pre & Hk & -> & Hlen & Htr & Hs).
    simpl in Hs. rewrite Htr, searches_app, Hs in Hin. simpl in Hin.
    apply elem_of_app in Hin as [Hin | Hin].
    + apply elem_of_zip_r, list_elem_of_fmap in Hin as (t & Ht & _).
      discriminate Ht.
    + apply list_elem_of_singleton in Hin. injection Hin as -> ->.
      by exists k, g, tbls, pre.
  - intros Hin. exfalso.
    apply requery_loop_returns in Hloop as (tbls & -> & _ & Hs & _).
    simpl in Hs.
    assert (trace (pd_concat tbls st').2 = trace st') as Htr
      by (by destruct tbls).
    simpl in Hin. rewrite Htr, Hs in Hin.
    apply elem_of_zip_r, list_elem_of_fmap in Hin as (t & Ht & _).
    discriminate Ht.
Qed.

(** C2: in a run in which no search raises, the loop searches exactly once
    per group of the index, with that group's query, and the combined table
    has as many rows as the tables of the groups have together. *)
Theorem requery_counts index w :
  all_returned (trace (run index w).2) = true →
  length (searches (trace (run index w).2)) = length index ∧
  ∃ tbls,
    length tbls = length index ∧
    searches (trace (run index w).2) =
      zip (requery <$> index) (inr <$> tbls) ∧
    (index ≠ [] →
     ∃ out, (run index w).1 = inr out ∧
            length out = sum_list (length <$> tbls)).
Proof.
  intros Hall.
  destruct (run_all_returned index w Hall) as (tbls & Hlen & Hs & Hout).
  split.
  - rewrite Hs, length_zip, !length_fmap. lia.
  - exists tbls. split_and!; [done | done |].
    intros Hne. destruct tbls as [|t tbls].
    { destruct index; [done | discriminate Hlen]. }
    exists (concat (t :: tbls)). split; [exact Hout |].
    generalize (t :: tbls). intros l.
    induction l as [|x l IH]; simpl; [done |].
    by rewrite length_app, IH.
Qed.

(** C6: in the combined table the rows of each group form one block, the
    blocks follow the order of the index, and each block is that group's
    table as the search returned it. *)
Theorem combined_table_order index w :
  all_returned (trace (run index w).2) = true →
  index ≠ [] →
  ∃ tbls out,
    length tbls = length index ∧
    searches (trace (run index w).2) =
      zip (requery <$> index) (inr <$> tbls) ∧
    (run index w).1 = inr out ∧
    out = concat tbls ∧
    ∀ i g t, index !! i = Some g → tbls !! i = Some t →
      out = concat (take i tbls) ++ t ++ concat (drop (S i) tbls).
Proof.
  intros Hall Hne.
  destruct (run_all_returned index w Hall) as (tbls & Hlen & Hs & Hout).
  exists tbls, (concat tbls). split_and!; try done.
  - destruct tbls; [|done].
    destruct index; [done | discriminate Hlen].
  - intros i g t _ Ht.
    rewrite <- (take_drop_middle tbls i t Ht) at 1.
    by rewrite concat_app.
Qed.

(** C7: when a search raises, the run ends with that exception and with no
    table; the failed search is the last thing the run did; and before it
    every earlier group was searched exactly once, successfully. *)
Theorem subquery_failure_aborts index w q err :
  (q, inl err) ∈ searches (trace (run index w).2) →
  (run index w).1 = inl (SearchError err) ∧
  ∃ k g tbls pre,
    index !! k = Some g ∧
    q = requery g ∧
    length tbls = k ∧
    trace (run index w).2 = pre ++ [Search q (inl err)] ∧
    searches pre = zip (requery <$> take k index) (inr <$> tbls).
Proof.
  intros Hin.
  destruct (run_search_raised index w q err Hin)
    as (k & g & tbls & pre & Hk & Hq & Hlen & Htr & Hs & Hout).
  split; [exact Hout |]. by exists k, g, tbls, pre.
Qed.

(** C9: over an empty index the loop searches nothing and the
    concatenation raises; no table, not even an empty one, comes out. *)
Theorem run_empty_index w :
  run [] w =
    (inl (ValueError "No objects to concatenate"),
     {| world := w; trace := [] |}).
Proof. reflexivity. Qed.

End loop.

(** ** The sample catalogue *)

(** Both sources answer: three rows, those of the first group first. *)
Example run_online_rows :
  match (run (H := sample_catalogue) index_online 0).1 with
  | inr out => source_id <$> out = ["CESM2"; "CanESM5"; "CanESM5"]
  | inl _ => False
  end.
Proof. vm_compute. reflexivity. Qed.

(** The second source does not answer: two searches, the third group is
    never asked for. *)
Example run_offline_searches :
  kw_source_id <$>
    (searches (trace (run (H := sample_catalogue) index_offline 0).2)).*1
  = [Some "CESM2"; Some "offline"].
Proof. vm_compute. reflexivity. Qed.


Lemma requery_counts_witness :
  all_returned (trace (run (H := sample_catalogue) index_online 0).2) = true ∧
  length (searches (trace (run (H := sample_catalogue) index_online 0).2))
    = length index_online ∧
  ∃ tbls,
    length tbls = length index_online ∧
    searches (trace (run (H := sample_catalogue) index_online 0).2) =
      zip (requery <$> index_online) (inr <$> tbls) ∧
    (index_online ≠ [] →
     ∃ out, (run (H := sample_catalogue) index_online 0).1 = inr out ∧
            length out = sum_list (length <$> tbls)).
Proof.
  assert (Hall : all_returned
            (trace (run (H := sample_catalogue) index_online 0).2) = true)
    by (vm_compute; reflexivity).
  split; [exact Hall |].
  exact (requery_counts (H := sample_catalogue) index_online 0 Hall).
Defined.

Lemma combined_table_order_witness :
  all_returned (trace (run (H := sample_catalogue) index_online 0).2) = true ∧
  ∃ tbls out,
    length tbls = length index_online ∧
    searches (trace (run (H := sample_catalogue) index_online 0).2) =
      zip (requery <$> index_online) (inr <$> tbls) ∧
    (run (H := sample_catalogue) index_online 0).1 = inr out ∧
    out = concat tbls ∧
    ∀ i g t, index_online !! i = Some g → tbls !! i = Some t →
      out = concat (take i tbls) ++ t ++ concat (drop (S i) tbls).
Proof.
  assert (Hall : all_returned
            (trace (run (H := sample_catalogue) index_online 0).2) = true)
    by (vm_compute; reflexivity).
  assert (Hne : index_online ≠ []) by (intros Hnil; discriminate Hnil).
  split; [exact Hall |].
  exact (combined_table_order (H := sample_catalogue) index_online 0 Hall Hne).
Defined.

Lemma subquery_failure_aborts_witness :
  (requery ("offline", "r1i1p1f1", "gn"), inl "NoSearchResults")
    ∈ searches (trace (run (H := sample_catalogue) index_offline 0).2) ∧
  (run (H := sample_catalogue) index_offline 0).1 =
    inl (SearchError ("NoSearchResults" : @search_error sample_catalogue)) ∧
  ∃ k g tbls pre,
    index_offline !! k = Some g ∧
    requery ("offline", "r1i1p1f1", "gn") = requery g ∧
    length tbls = k ∧
    trace (run (H := sample_catalogue) index_offline 0).2 =
      pre ++ [Search (H := sample_catalogue)
                     (requery ("offline", "r1i1p1f1", "gn"))
                     (inl "NoSearchResults")] ∧
    searches (H := sample_catalogue) pre =
      zip (requery <$> take k index_offline) (inr <$> tbls).
Proof.
  assert (Hin : (requery ("offline", "r1i1p1f1", "gn"), inl "NoSearchResults")
            ∈ searches (trace (run (H := sample_catalogue) index_offline 0).2))
    by (apply list_elem_of_In; vm_compute; right; left; reflexivity).
  split; [exact Hin |].
  exact (subquery_failure_aborts (H := sample_catalogue) index_offline 0
           _ _ Hin).
Defined.

(** ** The variable lists *)

Lemma initial_in_requery : initial_variable_id ⊆ requery_variable_id.
Proof. apply (bool_decide_unpack _). vm_compute. exact I. Qed.

(** A row can turn a rejected dataframe into an accepted one only by
    bringing one of the seven names the predicate looks for. *)
Lemma qualifying_row_variable (df : DataFrame) (r : row) :
  has_carbon_cycle df = false →
  has_carbon_cycle (r :: df) = true →
  variable_id r ∈ initial_variable_id.
Proof.
  intros Hbefore Hafter.
  destruct (decide (variable_id r ∈ initial_variable_id)) as [|Hnot];
    [done | exfalso].
  assert (Hkeep : ∀ x, x ∈ initial_variable_id →
                       x ∈ variables (r :: df) → x ∈ variables df).
  { intros x Hx Hin. unfold variables in Hin. simpl in Hin.
    apply elem_of_union in Hin as [Hin | Hin]; [|done].
    apply elem_of_singleton in Hin as ->. by destruct Hnot. }
  assert (Hnames : Forall (λ x, x ∈ initial_variable_id) initial_variable_id)
    by (by apply Forall_forall).
  unfold initial_variable_id in Hnames at 2.
  repeat (apply Forall_cons_1 in Hnames as [? Hnames]).
  apply carbon_cycle_rule_spec in Hafter as (Hsoil & Hflux & Hc & Hg & Hl).
  assert (has_carbon_cycle df = true) as Htrue; [|congruence].
  apply carbon_cycle_rule_spec. split_and!.
  - destruct Hsoil; [left | right]; by apply Hkeep.
  - destruct Hflux; [left | right]; by apply Hkeep.
  - by apply Hkeep.
  - by apply Hkeep.
  - by apply Hkeep.
Qed.

(** C10: every per-group search asks for all seven variables of the initial
    search, and so for every variable that can make the predicate accept a
    group. *)
Theorem requery_variables_cover (g : group) :
  kw_variable_id initial_search =
    ["cSoilAbove1m"; "cSoil"; "cVeg"; "gpp"; "lai"; "nbp";
     "netAtmosLandCO2Flux"] ∧
  kw_variable_id initial_search ⊆ kw_variable_id (requery g) ∧
  ∀ df r,
    has_carbon_cycle df = false →
    has_carbon_cycle (r :: df) = true →
    variable_id r ∈ kw_variable_id (requery g).
Proof.
  destruct g as [[source member] grid]. simpl.
  split_and!; [done | apply initial_in_requery |].
  intros df r Hbefore Hafter.
  apply initial_in_requery. by eapply qualifying_row_variable.
Qed.

(** ** More on the completeness predicate *)

Section verdict.
Implicit Types (df : DataFrame) (S : gset string) (v : string) (r : row).

(** The rule reads its set at the seven names of the initial search and
    nowhere else. *)
Lemma carbon_cycle_rule_ext S S' :
  (∀ v, v ∈ initial_variable_id → (v ∈ S ↔ v ∈ S')) →
  carbon_cycle_rule S = carbon_cycle_rule S'.
Proof.
  intros Hsame. apply Bool.eq_iff_eq_true.
  rewrite !carbon_cycle_rule_spec.
  assert (Hnames : Forall (λ x, x ∈ initial_variable_id) initial_variable_id)
    by (by apply Forall_forall).
  unfold initial_variable_id in Hnames at 2.
  repeat (apply Forall_cons_1 in Hnames as [?%Hsame Hnames]).
  tauto.
Qed.

(** X1: the verdict depends on nothing but which variable names occur:
    row order, repeated rows and the other columns do not matter. *)
Theorem has_carbon_cycle_same_names df df' :
  (∀ v, v ∈ variable_id <$> df ↔ v ∈ variable_id <$> df') →
  has_carbon_cycle df = has_carbon_cycle df'.
Proof.
  intros Hsame. apply carbon_cycle_rule_ext. intros v _.
  unfold variables. rewrite !elem_of_list_to_set. apply Hsame.
Qed.

Lemma has_carbon_cycle_same_names_witness :
  (∀ v, v ∈ variable_id <$> df_minimal ↔ v ∈ variable_id <$> df_shuffled) ∧
  has_carbon_cycle df_minimal = has_carbon_cycle df_shuffled.
Proof.
  assert (Hsame : ∀ v, v ∈ variable_id <$> df_minimal
                       ↔ v ∈ variable_id <$> df_shuffled).
  { intros v. rewrite !list_elem_of_In. simpl. tauto. }
  split; [exact Hsame |].
  exact (has_carbon_cycle_same_names df_minimal df_shuffled Hsame).
Defined.

(** X2: only the seven names of the initial search count: dropping every
    row of another variable leaves the verdict as it was. *)
Theorem has_carbon_cycle_only_initial df :
  has_carbon_cycle (filter (λ r, variable_id r ∈ initial_variable_id) df)
  = has_carbon_cycle df.
Proof.
  apply carbon_cycle_rule_ext. intros v Hv.
  rewrite !elem_of_variables. split.
  - intros (r & Hr & <-). apply list_elem_of_filter in Hr as [_ Hr]. eauto.
  - intros (r & Hr & <-). exists r. split; [|done].
    by apply list_elem_of_filter.
Qed.

Lemma size_list_to_set_le (l : list string) :
  (size (list_to_set l : gset string) ≤ length l)%nat.
Proof.
  induction l as [|x l IH].
  - done.
  - rewrite list_to_set_cons, length_cons, size_union_alt, size_singleton.
    assert (size (list_to_set l ∖ {[x]} : gset string)
            ≤ size (list_to_set l : gset string))%nat
      by (apply subseteq_size, subseteq_difference_l; done).
    lia.
Qed.

Lemma size_ge_of_distinct (l : list string) S :
  NoDup l → Forall (λ x, x ∈ S) l → (length l ≤ size S)%nat.
Proof.
  intros Hnd Hall. rewrite <- (size_list_to_set (C := gset string) l Hnd).
  apply subseteq_size. intros x Hx. apply elem_of_list_to_set in Hx.
  by eapply Forall_forall in Hall.
Qed.

(** X3: an accepted dataframe carries at least five different variables,
    and so has at least five rows. *)
Theorem has_carbon_cycle_at_least_five df :
  has_carbon_cycle df = true →
  (5 ≤ size (variables df))%nat ∧ (5 ≤ length df)%nat.
Proof.
  intros Htrue.
  apply carbon_cycle_rule_spec in Htrue as (Hsoil & Hflux & Hc & Hg & Hl).
  assert (5 ≤ size (variables df))%nat as Hsize.
  { destruct Hsoil as [Hs | Hs], Hflux as [Hf | Hf].
    - apply (size_ge_of_distinct ["cSoil"; "nbp"; "cVeg"; "gpp"; "lai"]).
      + apply (bool_decide_unpack _). vm_compute. exact I.
      + by repeat constructor.
    - apply (size_ge_of_distinct
               ["cSoil"; "netAtmosLandCO2Flux"; "cVeg"; "gpp"; "lai"]).
      + apply (bool_decide_unpack _). vm_compute. exact I.
      + by repeat constructor.
    - apply (size_ge_of_distinct
               ["cSoilAbove1m"; "nbp"; "cVeg"; "gpp"; "lai"]).
      + apply (bool_decide_unpack _). vm_compute. exact I.
      + by repeat constructor.
    - apply (size_ge_of_distinct
               ["cSoilAbove1m"; "netAtmosLandCO2Flux"; "cVeg"; "gpp"; "lai"]).
      + apply (bool_decide_unpack _). vm_compute. exact I.
      + by repeat constructor. }
  split; [exact Hsize |].
  pose proof (size_list_to_set_le (map variable_id df)) as Hle.
  rewrite length_map in Hle. fold (variables df) in Hle. lia.
Qed.

Lemma has_carbon_cycle_at_least_five_witness :
  has_carbon_cycle df_minimal = true ∧
  (5 ≤ size (variables df_minimal))%nat ∧ (5 ≤ length df_minimal)%nat.
Proof.
  assert (Htrue : has_carbon_cycle df_minimal = true)
    by (vm_compute; reflexivity).
  split; [exact Htrue |].
  exact (has_carbon_cycle_at_least_five df_minimal Htrue).
Defined.

(** Shows that the dataframe of the given variables is rejected and is
    accepted with one more row, of the variable the goal names. *)
Ltac flips_with vs :=
  lazymatch goal with
  | |- ∃ df r, variable_id r = ?v ∧ _ =>
      exists (sample_df vs), (sample_row v);
      split_and!; [reflexivity | vm_compute; reflexivity ..]
  end.

(** X4: the initial search asks for exactly the variables that can decide
    a verdict: a name is one of its seven if and only if some rejected
    dataframe is accepted once a row of that name is added. *)
Theorem initial_variables_are_the_deciding_ones v :
  v ∈ initial_variable_id ↔
  ∃ df r, variable_id r = v ∧
          has_carbon_cycle df = false ∧
          has_carbon_cycle (r :: df) = true.
Proof.
  split.
  - intros Hv. unfold initial_variable_id in Hv.
    repeat (apply elem_of_cons in Hv as [-> | Hv]);
      [ flips_with ["nbp"; "cVeg"; "gpp"; "lai"]
      | flips_with ["nbp"; "cVeg"; "gpp"; "lai"]
      | flips_with ["cSoil"; "nbp"; "gpp"; "lai"]
      | flips_with ["cSoil"; "nbp"; "cVeg"; "lai"]
      | flips_with ["cSoil"; "nbp"; "cVeg"; "gpp"]
      | flips_with ["cSoil"; "cVeg"; "gpp"; "lai"]
      | flips_with ["cSoil"; "cVeg"; "gpp"; "lai"]
      | by apply elem_of_nil in Hv ].
  - intros (df & r & <- & Hbefore & Hafter).
    exact (qualifying_row_variable df r Hbefore Hafter).
Qed.

End verdict.

(** ** More on the loop *)

Section runs.
Context `{Catalogue}.
Implicit Types (index : list group) (dfs tbls : list DataFrame).
Implicit Types (st : state) (tr : list event) (w : World).
Implicit Types (rs : list (search_error + DataFrame)).

(** The final concatenation leaves the state as the loop left it. *)
Lemma run_state index w :
  (run index w).2 = (requery_loop index [] {| world := w; trace := [] |}).2.
Proof.
  unfold run, combine, mbind, M_bind.
  destruct (requery_loop index [] _) as [[e | dfs] st']; [done |].
  unfold pd_concat. by destruct (concat_outcome dfs).
Qed.

(** The whole of what the loop does, for any index and any catalogue: it
    goes through the index turn by turn, stops after a search that raised,
    and hands each search the world the one before left. *)
Lemma requery_loop_shape index : ∀ dfs st,
  ∃ rs,
    (length rs ≤ length index)%nat ∧
    trace (requery_loop index dfs st).2 =
      trace st ++ mjoin (zip_with turn index rs) ∧
    world (requery_loop index dfs st).2 =
      foldl served (world st) (take (length rs) index) ∧
    (∀ i r, rs !! i = Some r →
       ∃ g, index !! i = Some g ∧
            r = (search (requery g)
                        (foldl served (world st) (take i index))).1) ∧
    match (requery_loop index dfs st).1 with
    | inr out =>
        ∃ tbls, rs = inr <$> tbls ∧ length tbls = length index ∧
                out = dfs ++ tbls
    | inl e =>
        ∃ err tbls, rs = (inr <$> tbls) ++ [inl err] ∧ e = SearchError err
    end.
Proof.
  induction index as [|g index IH]; intros dfs st.
  - exists []. simpl. split_and!; [done | by rewrite app_nil_r | done | |].
    + intros i r Hr. by rewrite lookup_nil in Hr.
    + exists []. by rewrite app_nil_r.
  - rewrite requery_loop_cons.
    destruct (search (requery g) (world st)) as [[e | df] w'] eqn:Hsearch.
    + exists [inl e]. simpl. split_and!.
      * lia.
      * by rewrite zip_with_nil_r.
      * unfold served. by rewrite Hsearch.
      * intros [|i] r Hr; [|by destruct i].
        injection Hr as <-. exists g. simpl. by rewrite Hsearch.
      * by exists e, [].
    + destruct (IH (dfs ++ [df])
                  {| world := w';
                     trace := trace st ++ [Print g; Search (requery g) (inr df)]
                  |}) as (rs & Hlen & Htr & Hw & Hrs & Hout).
      simpl in Htr, Hw, Hrs.
      assert (served (world st) g = w') as Hserved
        by (unfold served; by rewrite Hsearch).
      exists (inr df :: rs). simpl. split_and!.
      * lia.
      * rewrite Htr, <- app_assoc. done.
      * by rewrite Hserved.
      * intros [|i] r Hr.
        -- injection Hr as <-. exists g. simpl. by rewrite Hsearch.
        -- simpl in Hr. apply Hrs in Hr as (g' & Hg' & ->).
           exists g'. simpl. by rewrite Hserved.
      * destruct (requery_loop index (dfs ++ [df]) _).1 as [e | out].
        -- destruct Hout as (err & tbls & -> & ->). by exists err, (df :: tbls).
        -- destruct Hout as (tbls & -> & Hl & ->). exists (df :: tbls).
           simpl. by rewrite Hl, <- app_assoc.
Qed.

(** The same for a run, with the three ways it can end. *)
Lemma run_shape index w :
  ∃ rs,
    (length rs ≤ length index)%nat ∧
    trace (run index w).2 = mjoin (zip_with turn index rs) ∧
    world (run index w).2 = foldl served w (take (length rs) index) ∧
    (∀ i r, rs !! i = Some r →
       ∃ g, index !! i = Some g ∧
            r = (search (requery g) (foldl served w (take i index))).1) ∧
    match (run index w).1 with
    | inr out =>
        ∃ tbls, rs = inr <$> tbls ∧ length tbls = length index ∧
                tbls ≠ [] ∧ out = concat tbls
    | inl (SearchError err) => ∃ tbls, rs = (inr <$> tbls) ++ [inl err]
    | inl (ValueError _) => index = []
    end.
Proof.
  destruct (requery_loop_shape index [] {| world := w; trace := [] |})
    as (rs & Hlen & Htr & Hw & Hrs & Hout).
  exists rs. rewrite run_state. split_and!; try done.
  unfold run, combine, mbind, M_bind.
  destruct (requery_loop index [] _) as [[e | dfs] st']; simpl in *.
  - destruct Hout as (err & tbls & -> & ->). by exists tbls.
  - destruct Hout as (tbls & -> & Hl & ->).
    destruct tbls as [|t tbls]; simpl.
    + by destruct index.
    + by exists (t :: tbls).
Qed.

(** The searches of a trace made of turns. *)
Lemma searches_turns index rs :
  searches (mjoin (zip_with turn index rs)) = zip (requery <$> index) rs.
Proof.
  revert rs. induction index as [|g index IH]; intros [|r rs]; simpl; try done.
  by rewrite IH.
Qed.

Lemma results_turns index tbls :
  length tbls = length index →
  results (mjoin (zip_with turn index (inr <$> tbls))) = tbls.
Proof.
  revert tbls. induction index as [|g index IH]; intros [|t tbls] Hl;
    simpl in *; try done.
  rewrite IH; [done | lia].
Qed.

Lemma fst_zip_take {A B} (l : list A) (k : list B) :
  (zip l k).*1 = take (length k) l.
Proof.
  revert k. induction l as [|x l IH]; intros [|y k]; simpl; try done.
  by rewrite IH.
Qed.

Lemma all_returned_turns index rs :
  all_returned (mjoin (zip_with turn index rs)) = true ↔
  Forall (λ r, ∃ df, r = inr df) (take (length index) rs).
Proof.
  unfold all_returned. rewrite searches_turns.
  revert rs. induction index as [|g index IH]; intros [|r rs]; simpl;
    try (split; [by constructor | done]).
  rewrite andb_true_iff, IH, Forall_cons. destruct r as [e | df].
  - split; [by intros [? _] | by intros [[df Hdf] _]].
  - split; [intros [_ ?] | intros [_ ?]]; eauto.
Qed.

(** X5: the loop over two indexes one after the other is the loop over the
    first, and then, from the tables and the state that leaves, the loop
    over the second; if the first raises, the second is not started. *)
Theorem requery_loop_app index1 index2 dfs st :
  requery_loop (index1 ++ index2) dfs st =
  (requery_loop index1 dfs ≫= requery_loop index2) st.
Proof.
  revert dfs st. induction index1 as [|g index1 IH]; intros dfs st.
  - done.
  - rewrite <- app_comm_cons. unfold mbind, M_bind in *.
    rewrite !requery_loop_cons.
    destruct (search (requery g) (world st)) as [[e | df] w']; simpl; [done |].
    apply IH.
Qed.

(** X6: whatever the catalogue does, the trace of a run is a row of turns
    over the index from its start: the print of a group and then the
    search for that group, at most one turn per group, nothing between
    the turns and nothing after the last. *)
Theorem run_trace_turns index w :
  ∃ rs,
    (length rs ≤ length index)%nat ∧
    trace (run index w).2 = mjoin (zip_with turn index rs).
Proof.
  destruct (run_shape index w) as (rs & Hlen & Htr & _).
  by exists rs.
Qed.

(** X7: the [ValueError] of the concatenation comes from an empty index
    and from nothing else: with one group or more, a run can only fail
    with the exception of a search. *)
Theorem value_error_iff_empty_index index w :
  (∃ msg, (run index w).1 = inl (ValueError msg)) ↔ index = [].
Proof.
  split.
  - intros [msg Hrun].
    destruct (run_shape index w) as (rs & _ & _ & _ & _ & Hout).
    by rewrite Hrun in Hout.
  - intros ->. by exists "No objects to concatenate".
Qed.

(** X8: a run ends with a table exactly when the index is not empty and
    no search raised. *)
Theorem run_returns_iff index w :
  (∃ out, (run index w).1 = inr out) ↔
  index ≠ [] ∧ all_returned (trace (run index w).2) = true.
Proof.
  destruct (run_shape index w) as (rs & Hlen & Htr & _ & _ & Hout).
  rewrite Htr, all_returned_turns.
  destruct (run index w).1 as [[err | msg] | out].
  - destruct Hout as (tbls & ->). split; [by intros [? ?] |].
    intros [_ Hall]. exfalso.
    rewrite take_ge in Hall by done.
    apply Forall_app in Hall as [_ Hlast].
    apply Forall_cons_1 in Hlast as [[df Hdf] _]. discriminate Hdf.
  - subst index. split; [by intros [? ?] | by intros [? _]].
  - destruct Hout as (tbls & -> & Hl & Hne & ->).
    split; [intros _ | by eauto].
    split; [intros ->; by destruct tbls |].
    apply Forall_take, Forall_fmap, Forall_forall. intros df _. by exists df.
Qed.

#[local] Instance requery_inj : Inj (=) (=) requery.
Proof.
  intros [[s1 m1] g1] [[s2 m2] g2] Heq. unfold requery in Heq.
  by injection Heq as -> -> ->.
Qed.

(** X9: over an index of distinct groups no search is issued twice,
    whether the run ends well or not. *)
Theorem distinct_groups_distinct_queries index w :
  NoDup index →
  NoDup (searches (trace (run index w).2)).*1.
Proof.
  intros Hnd.
  destruct (run_shape index w) as (rs & _ & Htr & _).
  rewrite Htr, searches_turns, fst_zip_take.
  apply (sublist_NoDup _ (requery <$> index)).
  - by apply (NoDup_fmap_2 requery).
  - apply sublist_take.
Qed.

(** X10: the searches are served one after the other: each gets its answer
    in the world the searches for the groups before it have left, and the
    run leaves the world its last search left. *)
Theorem searches_served_in_sequence index w :
  world (run index w).2 =
    foldl served w (take (length (searches (trace (run index w).2))) index) ∧
  ∀ i q r, searches (trace (run index w).2) !! i = Some (q, r) →
    r = (search q (foldl served w (take i index))).1.
Proof.
  destruct (run_shape index w) as (rs & Hlen & Htr & Hw & Hrs & _).
  rewrite Htr, searches_turns. split.
  - rewrite length_zip, length_fmap, Nat.min_r by done. exact Hw.
  - intros i q r Hi. apply lookup_zip_with_Some in Hi
      as (q' & r' & [= <- <-] & Hq & Hr).
    apply Hrs in Hr as (g & Hg & ->).
    rewrite list_lookup_fmap, Hg in Hq. by injection Hq as <-.
Qed.

(** A row that answers the search for a group is a row of that group, for
    one of the variables of the second list. *)
Lemma answers_requery g (r : row) :
  answers (requery g) r = true →
  group_of r = g ∧ variable_id r ∈ requery_variable_id.
Proof.
  destruct g as [[s m] gl]. unfold answers, group_of. simpl.
  rewrite !andb_true_iff, !bool_decide_eq_true.
  by intros [[[-> ->] ->] Hv].
Qed.

(** With a catalogue that respects the filters, the tables of a run that
    ends well line up with the index: table [i] holds rows of group [i]
    only. *)
Lemma run_tables_by_group index w out :
  respects_filters →
  (run index w).1 = inr out →
  ∃ tbls,
    out = concat tbls ∧
    results (trace (run index w).2) = tbls ∧
    Forall2 (λ g tbl,
               Forall (λ r, group_of r = g ∧
                            variable_id r ∈ requery_variable_id) tbl)
            index tbls.
Proof.
  intros Hresp Hrun.
  destruct (run_shape index w) as (rs & _ & Htr & _ & Hrs & Hout).
  rewrite Hrun in Hout. destruct Hout as (tbls & -> & Hl & _ & ->).
  exists tbls. split_and!; [done | by rewrite Htr, results_turns |].
  apply Forall2_same_length_lookup. split; [done |].
  intros i g tbl Hg Htbl.
  destruct (Hrs i (inr tbl)) as (g' & Hg' & Hserved).
  { rewrite list_lookup_fmap. unfold DataFrame in *. by rewrite Htbl. }
  rewrite Hg in Hg'. injection Hg' as <-.
  symmetry in Hserved. apply Hresp in Hserved.
  apply Forall_forall. intros r Hr. apply answers_requery.
  rewrite forallb_forall in Hserved. apply Hserved.
  by apply list_elem_of_In.
Qed.

Lemma filter_foreign_group (g g' : group) (tbl : list row) :
  g ≠ g' →
  Forall (λ r, group_of r = g') tbl →
  filter (λ r, group_of r = g) tbl = [].
Proof.
  intros Hne. induction 1 as [|r tbl Hr _ IH]; [done |].
  rewrite filter_cons_False; [done |]. by rewrite Hr.
Qed.

Lemma filter_other_group (g : group) index tbls :
  g ∉ index →
  Forall2 (λ g' tbl, Forall (λ r, group_of r = g') tbl) index tbls →
  filter (λ r, group_of r = g) (concat tbls) = [].
Proof.
  intros Hg Hall. induction Hall as [|g' tbl index tbls Htbl _ IH]; [done |].
  apply not_elem_of_cons in Hg as [Hne Hg]. simpl.
  by rewrite filter_app, IH, app_nil_r, (filter_foreign_group g g').
Qed.

Lemma filter_own_group (g : group) (tbl : list row) :
  Forall (λ r, group_of r = g) tbl →
  filter (λ r, group_of r = g) tbl = tbl.
Proof.
  induction 1 as [|r tbl Hr _ IH]; [done |].
  by rewrite filter_cons_True, IH.
Qed.

Lemma filter_concat_by_group index tbls :
  NoDup index →
  Forall2 (λ g tbl, Forall (λ r, group_of r = g) tbl) index tbls →
  ∀ i g tbl, index !! i = Some g → tbls !! i = Some tbl →
    filter (λ r, group_of r = g) (concat tbls) = tbl.
Proof.
  intros Hnd Hall.
  induction Hall as [|g0 tbl0 index tbls Htbl0 Hall IH]; intros i g tbl Hg Htbl.
  - by rewrite lookup_nil in Hg.
  - apply NoDup_cons in Hnd as [Hfresh Hnd]. simpl. rewrite filter_app.
    destruct i as [|i]; simpl in Hg, Htbl.
    + injection Hg as ->. injection Htbl as ->.
      rewrite filter_own_group by done.
      rewrite (filter_other_group g index tbls) by done.
      by rewrite app_nil_r.
    + rewrite (IH Hnd i g tbl Hg Htbl).
      assert (g ≠ g0) as Hne.
      { intros ->. apply Hfresh. by eapply list_elem_of_lookup_2. }
      by rewrite (filter_foreign_group g g0).
Qed.

(** X11: if the catalogue returns only rows that answer the search, every
    row of the combined table belongs to a group of the index and to a
    variable of the second list. *)
Theorem combined_rows_belong index w out :
  respects_filters →
  (run index w).1 = inr out →
  Forall (λ r, group_of r ∈ index ∧ variable_id r ∈ requery_variable_id) out.
Proof.
  intros Hresp Hrun.
  destruct (run_tables_by_group index w out Hresp Hrun)
    as (tbls & -> & _ & Hall).
  clear Hrun.
  induction Hall as [|g tbl index tbls Htbl _ IH]; simpl; [done |].
  apply Forall_app. split.
  - eapply Forall_impl; [exact Htbl |]. intros r [<- Hv].
    split; [by left | done].
  - eapply Forall_impl; [exact IH |]. intros r [Hg Hv].
    split; [by right | done].
Qed.

(** X12: if moreover the groups of the index are distinct, the combined
    table can be taken apart again: its rows of one group are the table
    the search for that group returned, in the same order. *)
Theorem group_rows_recovered index w out i g tbl :
  respects_filters →
  NoDup index →
  (run index w).1 = inr out →
  index !! i = Some g →
  results (trace (run index w).2) !! i = Some tbl →
  filter (λ r, group_of r = g) out = tbl.
Proof.
  intros Hresp Hnd Hrun Hg Htbl.
  destruct (run_tables_by_group index w out Hresp Hrun)
    as (tbls & -> & Hres & Hall).
  rewrite Hres in Htbl.
  eapply filter_concat_by_group; [exact Hnd | | exact Hg | exact Htbl].
  eapply Forall2_impl; [exact Hall |]. intros g' tbl' Hrows.
  eapply Forall_impl; [exact Hrows |]. by intros r [? _].
Qed.

(** X13: an empty combined table is not an error: a run that ends well
    gives the empty table exactly when every search returned an empty
    table. *)
Theorem combined_table_empty_iff index w out :
  (run index w).1 = inr out →
  out = [] ↔ Forall (λ tbl, tbl = []) (results (trace (run index w).2)).
Proof.
  intros Hrun.
  destruct (run_shape index w) as (rs & _ & Htr & _ & _ & Hout).
  rewrite Hrun in Hout. destruct Hout as (tbls & -> & Hl & _ & ->).
  rewrite Htr, results_turns by done. clear.
  induction tbls as [|tbl tbls IH]; simpl.
  - split; [by constructor | done].
  - rewrite Forall_cons, <- IH. split.
    + by intros [-> ->]%app_eq_nil.
    + by intros [-> ->].
Qed.

End runs.

(** ** The sample catalogues again *)

Lemma sample_respects_filters : respects_filters (H := sample_catalogue).
Proof.
  intros q n df Hs. simpl in Hs. unfold sample_search in Hs.
  case_bool_decide; [discriminate Hs |]. injection Hs as <-.
  apply forallb_forall. intros r Hr. unfold sample_table in Hr.
  apply in_map_iff in Hr as (v & <- & Hv). unfold answers. simpl.
  rewrite !andb_true_iff. split_and!.
  - by destruct (kw_source_id q); simpl; [apply bool_decide_eq_true |].
  - by destruct (kw_member_id q); simpl; [apply bool_decide_eq_true |].
  - by destruct (kw_grid_label q); simpl; [apply bool_decide_eq_true |].
  - apply bool_decide_eq_true, (subseteq_take (S n)).
    by apply list_elem_of_In.
Qed.

Lemma distinct_groups_distinct_queries_witness :
  NoDup index_offline ∧
  NoDup (searches
           (trace (run (H := sample_catalogue) index_offline 0).2)).*1.
Proof.
  assert (Hnd : NoDup index_offline)
    by (apply (bool_decide_unpack _); vm_compute; exact I).
  split; [exact Hnd |].
  exact (distinct_groups_distinct_queries (H := sample_catalogue)
           index_offline 0 Hnd).
Defined.

Lemma combined_rows_belong_witness :
  (run (H := sample_catalogue) index_online 0).1 = inr out_online ∧
  Forall (λ r, group_of r ∈ index_online ∧
               variable_id r ∈ requery_variable_id) out_online.
Proof.
  assert (Hrun : (run (H := sample_catalogue) index_online 0).1
                 = inr out_online) by (vm_compute; reflexivity).
  split; [exact Hrun |].
  exact (combined_rows_belong (H := sample_catalogue) index_online 0
           out_online sample_respects_filters Hrun).
Defined.

Lemma group_rows_recovered_witness :
  NoDup index_online ∧
  (run (H := sample_catalogue) index_online 0).1 = inr out_online ∧
  index_online !! 1 = Some ("CanESM5", "r1i1p1f1", "gn") ∧
  filter (λ r, group_of r = ("CanESM5", "r1i1p1f1", "gn")) out_online
  = sample_table (requery ("CanESM5", "r1i1p1f1", "gn")) 1.
Proof.
  assert (Hnd : NoDup index_online)
    by (apply (bool_decide_unpack _); vm_compute; exact I).
  assert (Hrun : (run (H := sample_catalogue) index_online 0).1
                 = inr out_online) by (vm_compute; reflexivity).
  assert (Hg : index_online !! 1 = Some ("CanESM5", "r1i1p1f1", "gn"))
    by reflexivity.
  assert (Htbl : results
                   (trace (run (H := sample_catalogue) index_online 0).2) !! 1
                 = Some (sample_table
                           (requery ("CanESM5", "r1i1p1f1", "gn")) 1))
    by (vm_compute; reflexivity).
  split_and!; [exact Hnd | exact Hrun | exact Hg |].
  exact (group_rows_recovered (H := sample_catalogue) index_online 0
           out_online 1 _ _ sample_respects_filters Hnd Hrun Hg Htbl).
Defined.

Lemma combined_table_empty_iff_witness :
  (run (H := silent_catalogue) index_online ()).1 = inr [] ∧
  (([] : DataFrame) = [] ↔
   Forall (λ tbl : DataFrame, tbl = [])
     (results (trace (run (H := silent_catalogue) index_online ()).2))).
Proof.
  assert (Hrun : (run (H := silent_catalogue) index_online ()).1 = inr [])
    by reflexivity.
  split; [exact Hrun |].
  exact (combined_table_empty_iff (H := silent_catalogue) index_online ()
           [] Hrun).
Defined.

(** ** The order of the blocks and the order of first encounter *)

(** The sorted listing is a listing of the distinct groups of the
    dataframe, each once. *)
Lemma sorted_groups_Permutation (df : DataFrame) :
  sorted_groups df ≡ₚ first_seen df.
Proof. apply merge_sort_Permutation. Qed.

Lemma distinct_in_order_spec (gs : list group) : ∀ seen,
  NoDup (distinct_in_order seen gs) ∧
  ∀ g, g ∈ distinct_in_order seen gs ↔ g ∈ gs ∧ g ∉ seen.
Proof.
  induction gs as [|g0 gs IH]; intros seen; simpl.
  - split; [constructor |]. intros g. rewrite elem_of_nil. tauto.
  - case_bool_decide as Hseen.
    + destruct (IH seen) as [Hnd Hin]. split; [done |].
      intros g. rewrite Hin, elem_of_cons. split; [tauto |].
      intros [[-> | Hg] Hn]; [done | tauto].
    + destruct (IH (g0 :: seen)) as [Hnd Hin]. split.
      * apply NoDup_cons. split; [|done].
        rewrite Hin, not_elem_of_cons. tauto.
      * intros g. rewrite !elem_of_cons, Hin, not_elem_of_cons.
        destruct (decide (g = g0)) as [-> | Hne]; tauto.
Qed.

Lemma first_seen_NoDup (df : DataFrame) : NoDup (first_seen df).
Proof. apply distinct_in_order_spec. Qed.

Lemma elem_of_first_seen (df : DataFrame) (g : group) :
  g ∈ first_seen df ↔ ∃ r, r ∈ df ∧ group_of r = g.
Proof.
  unfold first_seen.
  destruct (distinct_in_order_spec (map group_of df) []) as [_ Hin].
  rewrite Hin. split.
  - intros [Hg _]. apply list_elem_of_In, in_map_iff in Hg as (r & <- & Hr).
    exists r. split; [by apply list_elem_of_In | done].
  - intros (r & Hr & <-). split; [|apply not_elem_of_nil].
    apply list_elem_of_In, in_map_iff. exists r.
    split; [done | by apply list_elem_of_In].
Qed.

(** C6, as the specification words it, does not hold: with a catalogue
    library that lists the groups sorted, the blocks of the combined table
    come in sorted order, CESM2 after ACCESS-ESM1-5, although CESM2 is
    encountered first in the catalogue's dataframe. *)
Lemma first_seen_order_fails :
  (requery_groups (H := sample_catalogue) sorted_groups df_two_models 0).1
    = inr out_two_models ∧
  first_seen df_two_models =
    [("CESM2", "r1i1p1f1", "gn"); ("ACCESS-ESM1-5", "r1i1p1f1", "gn")] ∧
  first_seen out_two_models =
    [("ACCESS-ESM1-5", "r1i1p1f1", "gn"); ("CESM2", "r1i1p1f1", "gn")] ∧
  in_first_seen_order df_two_models out_two_models = false.
Proof. split_and!; vm_compute; reflexivity. Qed.
